(** * Icon updater of the ingredients menu (recipe/static/recipe/ingredientsmenu.js)

    The script runs once, on document ready.  It sets an icon on the images
    that belong to the collapsible panels of the page and registers two
    listeners that swap the icon whenever a panel is shown or hidden:

      updateImage($(".update-on-expand"), COLLAPSED_SRC);
      $(".update-on-expand").on('show.bs.collapse', ... updateImage($(this), EXPANDED_SRC) ...);
      $(".update-on-expand").on('hide.bs.collapse', ... updateImage($(this), COLLAPSED_SRC) ...);
      function updateImage(div, src) {
        div.siblings().find(".update-image").attr("src", src);
      }

    The document is embedded as a tree of nodes, a jQuery collection as a
    list of paths into that tree, and the four jQuery operations the script
    calls (selection by class, [siblings], [find], [attr]) as functions on
    them.  The script itself is then a state transformer on documents. *)

From Stdlib Require Import Ascii String.
From stdpp Require Import gmap strings list fin_maps.

#[local] Set Warnings "-register-all,-clear-no-such-hyp".

(** ** The document *)

Module Dom.

(** A node is a text node or an element with a tag name, an attribute map
    and its child nodes in document order. *)
Inductive node : Type :=
| Text (data : string)
| Elem (tag : string) (attrs : gmap string string) (children : list node).

(** Induction with a hypothesis for every child of an element. *)
Fixpoint node_rect' (P : node → Type)
    (HT : ∀ s, P (Text s))
    (HE : ∀ tag a ch, (∀ i c, ch !! i = Some c → P c) → P (Elem tag a ch))
    (d : node) {struct d} : P d.
Proof.
  destruct d as [s | tag a ch].
  - apply HT.
  - apply HE. induction ch as [| c ch IH]; intros i x Hx.
    + discriminate.
    + destruct i as [| i]; simpl in Hx.
      * injection Hx as <-. exact (node_rect' P HT HE c).
      * exact (IH i x Hx).
Defined.

(** A node is addressed by the child indices that lead to it from the
    root; [[]] is the root element itself. *)
Abbreviation path := (list nat).

Fixpoint lookup_node (p : path) (d : node) {struct p} : option node :=
  match p with
  | [] => Some d
  | i :: p' =>
      match d with
      | Text _ => None
      | Elem _ _ ch => ch !! i ≫= lookup_node p'
      end
  end.

(** What can be observed of one node without looking at its children. *)
Inductive label : Type :=
| TextL (data : string)
| ElemL (tag : string) (attrs : gmap string string) (arity : nat).

Definition label_of (d : node) : label :=
  match d with
  | Text s => TextL s
  | Elem tag a ch => ElemL tag a (length ch)
  end.

Definition label_at (p : path) (d : node) : option label :=
  label_of <$> lookup_node p d.

Definition is_elem (d : node) : bool :=
  match d with Text _ => false | Elem _ _ _ => true end.

Definition is_elem_at (p : path) (d : node) : bool :=
  match label_at p d with Some (ElemL _ _ _) => true | _ => false end.

(** [getAttribute]: the value of attribute [k] of the element at [p]. *)
Definition getAttribute (p : path) (k : string) (d : node) : option string :=
  match label_at p d with
  | Some (ElemL _ a _) => a !! k
  | _ => None
  end.

(** [setAttribute]: replaces or adds attribute [k] of the element at [p].
    Nothing else of the document changes; a path that leads to no element
    leaves the document as it is. *)
Fixpoint setAttribute (p : path) (k v : string) (d : node) {struct p} : node :=
  match d with
  | Text s => Text s
  | Elem tag a ch =>
      match p with
      | [] => Elem tag (<[k := v]> a) ch
      | i :: p' =>
          match ch !! i with
          | Some c => Elem tag a (<[i := setAttribute p' k v c]> ch)
          | None => Elem tag a ch
          end
      end
  end.

(** *** Class names *)

(** ASCII whitespace separates the tokens of a [class] attribute. *)
Definition is_space (a : ascii) : bool :=
  bool_decide (a ∈ [" "; "009"; "010"; "012"; "013"]%char).

Definition flush (cur : string) : list string :=
  match cur with EmptyString => [] | _ => [cur] end.

Fixpoint tokens_from (cur : string) (s : string) : list string :=
  match s with
  | EmptyString => flush cur
  | String a s' =>
      if is_space a then flush cur ++ tokens_from EmptyString s'
      else tokens_from (cur +:+ String a EmptyString) s'
  end.

Definition tokens (s : string) : list string := tokens_from EmptyString s.

(** Whether an attribute map carries class [c] (case-sensitive, as in a
    standards-mode document). *)
Definition has_class (c : string) (a : gmap string string) : bool :=
  match a !! "class" with
  | Some v => bool_decide (c ∈ tokens v)
  | None => false
  end.

Definition has_class_at (c : string) (p : path) (d : node) : bool :=
  match label_at p d with
  | Some (ElemL _ a _) => has_class c a
  | _ => false
  end.

(** *** Element enumeration *)

(** The paths collected by [f] in each node of a list of children, each
    put below the index of its child; [i] is the index of the first. *)
Definition below (f : node → list path) : nat → list node → list path :=
  fix go (i : nat) (l : list node) {struct l} : list path :=
    match l with
    | [] => []
    | c :: l' => map (cons i) (f c) ++ go (S i) l'
    end.

(** Paths, relative to [d], of every element of the subtree of [d] in
    document order; the first one is [d] itself when it is an element. *)
Fixpoint elements (d : node) : list path :=
  match d with
  | Text _ => []
  | Elem _ _ ch => [] :: below elements 0 ch
  end.

(** The elements strictly below [d]. *)
Definition descendants (d : node) : list path := tail (elements d).

End Dom.

(** ** The jQuery operations the script calls *)

Module JQuery.
Import Dom.

(** A jQuery collection: the paths of the matched elements.  jQuery keeps a
    collection free of duplicates; its order is not observable through
    [attr], which writes the same value to every member. *)
Abbreviation collection := (list path).

(** [$(".c")]: every element of the document that carries class [c]. *)
Definition select (c : string) (d : node) : collection :=
  filter (λ p, has_class_at c p d) (elements d).

(** The parent of a path and the index below it; the root has none. *)
Fixpoint split_last (p : path) : option (path * nat) :=
  match p with
  | [] => None
  | i :: p' =>
      match split_last p' with
      | None => Some ([], i)
      | Some (q, j) => Some (i :: q, j)
      end
  end.

(** The siblings of one element: the children of its parent that are
    elements and are not the element itself. *)
Definition siblings_of (d : node) (t : path) : collection :=
  match split_last t with
  | None => []
  | Some (q, i) =>
      match lookup_node q d with
      | Some (Elem _ _ ch) =>
          (λ j, q ++ [j]) <$>
            filter (λ j, j ≠ i ∧ is_elem_at (q ++ [j]) d) (seq 0 (length ch))
      | _ => []
      end
  end.

(** [.siblings()] *)
Definition siblings (d : node) (S : collection) : collection :=
  remove_dups (S ≫= siblings_of d).

(** The elements strictly below [s] that carry class [c]. *)
Definition find_in (c : string) (d : node) (s : path) : collection :=
  match lookup_node s d with
  | Some n => filter (λ p, has_class_at c p d) ((λ r, s ++ r) <$> descendants n)
  | None => []
  end.

(** [.find(".c")] *)
Definition find (c : string) (d : node) (S : collection) : collection :=
  remove_dups (S ≫= find_in c d).

(** [.attr(k, v)]: sets attribute [k] on every member, one after the other. *)
Definition attr (k v : string) (S : collection) (d : node) : node :=
  foldl (λ d' p, setAttribute p k v d') d S.

End JQuery.

(** ** The script *)

Module IngredientsMenu.
Import Dom JQuery.

Definition COLLAPSED_SRC : string :=
  "http://icons.iconarchive.com/icons/awicons/vista-artistic/128/add-icon.png".
Definition EXPANDED_SRC : string :=
  "https://cdn1.iconfinder.com/data/icons/basic-ui-elements-color/700/07_minus-128.png".

(** [function updateImage(div, src)] *)
Definition updateImage (div : collection) (src : string) (d : node) : node :=
  attr "src" src (find "update-image" d (siblings d div)) d.

(** The two events the script listens to. *)
Inductive event_type : Type := show_bs_collapse | hide_bs_collapse.

#[global] Instance event_type_eq_dec : EqDecision event_type.
Proof. solve_decision. Defined.

(** The listener registered for [show.bs.collapse], with [this] bound to
    the element it runs on, and the one for [hide.bs.collapse]. *)
Definition on_show (this : path) (d : node) : node :=
  updateImage [this] EXPANDED_SRC d.

Definition on_hide (this : path) (d : node) : node :=
  updateImage [this] COLLAPSED_SRC d.

Definition callback (ty : event_type) : path → node → node :=
  match ty with
  | show_bs_collapse => on_show
  | hide_bs_collapse => on_hide
  end.

Definition src_of (ty : event_type) : string :=
  match ty with
  | show_bs_collapse => EXPANDED_SRC
  | hide_bs_collapse => COLLAPSED_SRC
  end.

(** The page: its document and the listeners [.on] has registered, each an
    event type and the element it is attached to. *)
Record page : Type := Page {
  document : node;
  listeners : list (event_type * path)
}.

(** [.on(ty, f)] on a collection: one listener per member. *)
Definition on (ty : event_type) (S : collection)
    (ls : list (event_type * path)) : list (event_type * path) :=
  ls ++ ((λ p, (ty, p)) <$> S).

(** The body of [$(document).ready(function() { ... })]. *)
Definition ready (d : node) : page :=
  let d1 := updateImage (select "update-on-expand" d) COLLAPSED_SRC d in
  let l1 := on show_bs_collapse (select "update-on-expand" d1) [] in
  let l2 := on hide_bs_collapse (select "update-on-expand" d1) l1 in
  Page d1 l2.

(** *** Event delivery *)

(** The prefixes of a path, shortest first: the root, ..., the path. *)
Fixpoint prefixes (p : path) : list path :=
  [] :: match p with
        | [] => []
        | i :: p' => map (cons i) (prefixes p')
        end.

(** A triggered event visits its target and then each ancestor up to the
    root (jQuery events bubble). *)
Definition propagation_path (target : path) : list path :=
  reverse (prefixes target).

(** Runs, on element [cur], the listeners registered there for [ty]. *)
Definition run_listeners (ty : event_type) (ls : list (event_type * path))
    (d : node) (cur : path) : node :=
  foldl (λ d' l, callback l.1 l.2 d') d (filter (λ l, l = (ty, cur)) ls).

Abbreviation event := (event_type * path)%type.

(** Delivery of one event of type [ty] fired on [target]. *)
Definition trigger (e : event) (pg : page) : page :=
  Page (foldl (run_listeners e.1 (listeners pg)) (document pg)
          (propagation_path e.2))
       (listeners pg).

(** The page after [ready] and a sequence of events, each handled to
    completion before the next. *)
Definition run (d : node) (evs : list event) : page :=
  foldl (λ pg e, trigger e pg) (ready d) evs.

End IngredientsMenu.

(** ** Event delivery as a transition relation *)

Module Semantics.
Import Dom JQuery IngredientsMenu.

(** One call of a listener, with [this] bound to the element it is
    attached to. *)
Inductive invoke : event_type → path → node → node → Prop :=
| invoke_show this d :
    invoke show_bs_collapse this d (updateImage [this] EXPANDED_SRC d)
| invoke_hide this d :
    invoke hide_bs_collapse this d (updateImage [this] COLLAPSED_SRC d).

(** The listeners of one element, called in the order of registration. *)
Inductive at_element (ty : event_type) (cur : path) :
    list (event_type * path) → node → node → Prop :=
| at_done d : at_element ty cur [] d d
| at_skip l ls d d' :
    l ≠ (ty, cur) → at_element ty cur ls d d' →
    at_element ty cur (l :: ls) d d'
| at_call ls d d1 d' :
    invoke ty cur d d1 → at_element ty cur ls d1 d' →
    at_element ty cur ((ty, cur) :: ls) d d'.

(** The visit of the elements on the way from the target to the root. *)
Inductive bubble (ty : event_type) (ls : list (event_type * path)) :
    list path → node → node → Prop :=
| bubble_done d : bubble ty ls [] d d
| bubble_visit cur rest d d1 d' :
    at_element ty cur ls d d1 → bubble ty ls rest d1 d' →
    bubble ty ls (cur :: rest) d d'.

(** One event, handled to completion. *)
Inductive step : page → event → page → Prop :=
| step_event pg ty target d' :
    bubble ty (listeners pg) (propagation_path target) (document pg) d' →
    step pg (ty, target) (Page d' (listeners pg)).

Inductive steps : page → list event → page → Prop :=
| steps_done pg : steps pg [] pg
| steps_next pg e pg1 evs pg' :
    step pg e pg1 → steps pg1 evs pg' → steps pg (e :: evs) pg'.

(** A run of the component: [ready], then the events in their order. *)
Definition execution (d : node) (evs : list event) (pg : page) : Prop :=
  steps (ready d) evs pg.

End Semantics.

(** ** The vocabulary of the properties *)

Module Notions.
Import Dom JQuery IngredientsMenu.

(** The effect of writing an attribute on the label of a node. *)
Definition set_label_attr (k v : string) (l : label) : label :=
  match l with
  | TextL s => TextL s
  | ElemL tag a n => ElemL tag (<[k := v]> a) n
  end.

(** A label without its attribute [k]. *)
Definition erase (k : string) (l : label) : label :=
  match l with
  | TextL s => TextL s
  | ElemL tag a n => ElemL tag (delete k a) n
  end.

(** [d] and [d'] have the same nodes, and on every element the same
    attributes apart from [k]. *)
Definition same_except (k : string) (d d' : node) : Prop :=
  ∀ p, erase k <$> label_at p d = erase k <$> label_at p d'.

(** [s] is a sibling of [t]: an element, other than [t], among the
    children of the parent of [t]. *)
Definition sibling (d : node) (t s : path) : Prop :=
  ∃ q i j, t = q ++ [i] ∧ s = q ++ [j] ∧ j ≠ i ∧ is_elem_at s d.

(** [p] lies strictly below [s]. *)
Definition strictly_below (s p : path) : Prop :=
  ∃ r, r ≠ [] ∧ p = s ++ r.

(** The collection [updateImage] writes to. *)
Definition targets (d : node) (div : collection) : collection :=
  find "update-image" d (siblings d div).

(** [p] is an image of [t]: an element of class [update-image] strictly
    below a sibling of [t]. *)
Definition image_of (d : node) (t p : path) : Prop :=
  ∃ s, sibling d t s ∧ strictly_below s p ∧ has_class_at "update-image" p d.

(** [t] is a toggle: an element of class [update-on-expand]. *)
Definition toggle (d : node) (t : path) : Prop :=
  has_class_at "update-on-expand" t d.

(** The elements on which a listener runs when an event of type [ty] is
    fired on [target], in the order of the visit. *)
Definition visited (ty : event_type) (ls : list (event_type * path))
    (target : path) : collection :=
  propagation_path target ≫= λ cur, (filter (λ l, l = (ty, cur)) ls).*2.

(** Whether event [e] makes a listener write to [p]: [p] is an image of
    one of the elements the event visits. *)
Definition reaches (d : node) (p : path) (e : event) : Prop :=
  p ∈ targets d (visited e.1 (listeners (ready d)) e.2).

#[global] Instance reaches_dec d p e : Decision (reaches d p e).
Proof. unfold reaches. apply _. Defined.

(** The icon of the last event of a sequence; the collapsed one when the
    sequence is empty. *)
Definition last_src (evs : list event) : string :=
  match last evs with
  | Some e => src_of e.1
  | None => COLLAPSED_SRC
  end.

End Notions.

(** ** A sample page *)

Module Sample.
Import Dom JQuery IngredientsMenu.

Definition div (cls : string) (ch : list node) : node :=
  Elem "div" {[ "class" := cls ]} ch.

Definition img (cls : string) : node :=
  Elem "img" {[ "class" := cls ]} [].

(** A panel whose heading holds the icon, followed by the collapsible body
    and by an image that is itself a sibling of the body. *)
Definition panel : node :=
  div "panel"
    [ div "panel-heading" [ Text "Dairy"; img "icon update-image" ];
      div "collapse update-on-expand" [ Text "milk" ];
      img "update-image" ].

(** A collapsible body with nothing next to it. *)
Definition bare : node :=
  div "panel" [ div "collapse update-on-expand" [ img "update-image" ] ].

Definition menu : node := Elem "body" ∅ [ panel; bare ].

(** A page whose only toggle has no sibling at all. *)
Definition lonely : node := Elem "body" ∅ [ bare ].

(** A toggle between a heading and a footer that both hold an image, the
    footer two levels down. *)
Definition double : node :=
  Elem "body" ∅
    [ div "panel"
        [ div "panel-heading" [ img "update-image" ];
          div "collapse update-on-expand" [];
          div "panel-footer" [ div "row" [ img "update-image" ] ] ] ].

(** Two collapsible bodies next to each other and to one heading. *)
Definition shared : node :=
  Elem "body" ∅
    [ div "panel"
        [ div "collapse update-on-expand" [];
          div "collapse update-on-expand" [];
          div "panel-heading" [ img "update-image" ] ] ].

(** A page without a panel. *)
Definition plain : node := Elem "body" ∅ [ Text "no panel here" ].

(** The page [menu] again, its icon loaded with a [src] of its own. *)
Definition menu_with_src : node :=
  setAttribute [0; 0; 1] "src" "old.png" menu.

(** Where the nodes of [menu] are. *)
Definition body_of_panel : path := [0; 1].
Definition icon_of_panel : path := [0; 0; 1].
Definition image_next_to_body : path := [0; 2].
Definition body_of_bare : path := [1; 0].

End Sample.

(** ** The images of a document *)

Module Images.
Import Dom JQuery IngredientsMenu Notions.

(** The collection [ready] writes to: the images of all the toggles. *)
Definition ready_targets (d : node) : collection :=
  targets d (select "update-on-expand" d).

(** The collection one event writes to, on a page reached from [d]. *)
Definition event_targets (d : node) (e : event) : collection :=
  targets d (visited e.1 (listeners (ready d)) e.2).

(** [pg] is a page of document [d]: it has the listeners [ready]
    registers on [d] and a document that differs from [d] in [src]
    attributes at most. *)
Definition page_of (d : node) (pg : page) : Prop :=
  listeners pg = listeners (ready d) ∧ same_except "src" (document pg) d.

(** Event [e] is received by a toggle that has [p] as an image: it is fired
    on such a toggle or on a node below it, from where it bubbles up. *)
Definition received (d : node) (p : path) (e : event) : Prop :=
  ∃ t, toggle d t ∧ t `prefix_of` e.2 ∧ image_of d t p.

End Images.

(** ** Facts about the document *)

Module DomFacts.
Import Dom Notions.

Lemma node_ind' (P : node → Prop) :
  (∀ s, P (Text s)) →
  (∀ tag a ch, (∀ i c, ch !! i = Some c → P c) → P (Elem tag a ch)) →
  ∀ d, P d.
Proof. intros HT HE d. exact (node_rect' P HT HE d). Qed.

Lemma label_at_nil d : label_at [] d = Some (label_of d).
Proof. reflexivity. Qed.

Lemma label_at_cons_text i p s : label_at (i :: p) (Text s) = None.
Proof. reflexivity. Qed.

Lemma label_at_cons_elem i p tag a ch :
  label_at (i :: p) (Elem tag a ch) = ch !! i ≫= label_at p.
Proof. unfold label_at. simpl. by destruct (ch !! i). Qed.

Lemma label_at_app p r d :
  label_at (p ++ r) d = lookup_node p d ≫= label_at r.
Proof.
  revert d. induction p as [| i p IH]; intros d; [done |].
  destruct d as [s | tag a ch]; [done |].
  rewrite <- app_comm_cons, label_at_cons_elem. simpl.
  destruct (ch !! i) as [c |]; simpl; [apply IH | done].
Qed.

(** [setAttribute] rewrites the label at its own path and no other. *)
Lemma label_at_setAttribute p k v d q :
  label_at q (setAttribute p k v d) =
  (if decide (q = p) then set_label_attr k v else id) <$> label_at q d.
Proof.
  revert q d. induction p as [| i p IH]; intros q d.
  - destruct d as [s | tag a ch]; simpl.
    + destruct q; [| done]. by case_decide.
    + destruct q as [| j q].
      * by rewrite decide_True.
      * rewrite decide_False by done. rewrite !label_at_cons_elem.
        by destruct (ch !! j ≫= label_at q).
  - destruct d as [s | tag a ch]; simpl.
    + destruct q; [| done]. by rewrite decide_False.
    + destruct (ch !! i) as [c |] eqn:Hc.
      * destruct q as [| j q].
        { rewrite decide_False by done. rewrite !label_at_nil. simpl.
          by rewrite length_insert. }
        rewrite !label_at_cons_elem.
        destruct (decide (j = i)) as [-> | Hji].
        -- rewrite list_lookup_insert_eq by (by eapply lookup_lt_Some).
           rewrite Hc. simpl. rewrite IH.
           destruct (decide (q = p)) as [-> | Hqp].
           ++ by rewrite decide_True.
           ++ rewrite decide_False by congruence. done.
        -- rewrite list_lookup_insert_ne by done.
           rewrite decide_False by congruence.
           by destruct (ch !! j ≫= label_at q).
      * destruct (decide (q = i :: p)) as [-> | Hq].
        -- rewrite label_at_cons_elem, Hc. done.
        -- by destruct (label_at q (Elem tag a ch)).
Qed.

(** A document is determined by the labels at its paths. *)
Lemma node_ext d : ∀ d', (∀ p, label_at p d = label_at p d') → d = d'.
Proof.
  induction d as [s | tag a ch IH] using node_ind'; intros d' H.
  - specialize (H []). rewrite !label_at_nil in H.
    destruct d'; simpl in H; congruence.
  - pose proof (H []) as H0. destruct d' as [| tag' a' ch']; [done |].
    rewrite !label_at_nil in H0. simpl in H0.
    injection H0 as -> -> Hlen. f_equal.
    apply list_eq_same_length with (length ch); [done | done |].
    intros i c c' Hi Hc Hc'. apply (IH i c Hc).
    intros p. specialize (H (i :: p)).
    by rewrite !label_at_cons_elem, Hc, Hc' in H.
Qed.

(** *** Enumeration *)

Lemma elem_of_below f l : ∀ i0 r,
  r ∈ below f i0 l ↔ ∃ j r' c, r = (i0 + j) :: r' ∧ l !! j = Some c ∧ r' ∈ f c.
Proof.
  induction l as [| c l IH]; intros i0 r; simpl.
  - split; [by intros ?%elem_of_nil | by intros (j & r' & c & _ & ? & _)].
  - rewrite elem_of_app, list_elem_of_fmap, IH. split.
    + intros [(r' & -> & Hr') | (j & r' & c' & -> & Hj & Hr')].
      * exists 0, r', c. by rewrite Nat.add_0_r.
      * exists (S j), r', c'. split; [f_equal; lia | done].
    + intros (j & r' & c' & -> & Hj & Hr'). destruct j as [| j]; simpl in Hj.
      * left. injection Hj as <-. exists r'. by rewrite Nat.add_0_r.
      * right. exists j, r', c'. split; [f_equal; lia | done].
Qed.

Lemma is_elem_at_nil d : is_elem_at [] d = is_elem d.
Proof. by destruct d. Qed.

Lemma is_elem_at_cons i r d :
  is_elem_at (i :: r) d ↔
  ∃ tag a ch c, d = Elem tag a ch ∧ ch !! i = Some c ∧ is_elem_at r c.
Proof.
  unfold is_elem_at. destruct d as [s | tag a ch].
  - rewrite label_at_cons_text. split; [done | by intros (? & ? & ? & ? & ? & _)].
  - rewrite label_at_cons_elem. destruct (ch !! i) as [c |] eqn:Hc; simpl.
    + split; [intros H; by exists tag, a, ch, c |].
      intros (? & ? & ? & c' & [= <- <- <-] & Hc' & H).
      rewrite Hc in Hc'. by injection Hc' as <-.
    + split; [done |]. intros (? & ? & ? & c' & [= <- <- <-] & Hc' & _).
      by rewrite Hc in Hc'.
Qed.

(** [elements] lists exactly the paths that lead to an element. *)
Lemma elem_of_elements d : ∀ r, r ∈ elements d ↔ is_elem_at r d.
Proof.
  induction d as [s | tag a ch IH] using node_ind'; intros r; simpl.
  - split; [by intros ?%elem_of_nil | by destruct r].
  - rewrite elem_of_cons, elem_of_below. split.
    + intros [-> | (j & r' & c & -> & Hc & Hr')]; [done |].
      apply is_elem_at_cons. exists tag, a, ch, c. split_and!; [done .. |].
      by apply (IH j c Hc).
    + destruct r as [| j r']; [by left |].
      intros (? & ? & ? & c & [= <- <- <-] & Hc & Hr)%is_elem_at_cons. right.
      exists j, r', c. split_and!; [done .. |]. by apply (IH j c Hc).
Qed.

Lemma elem_of_descendants d r :
  r ∈ descendants d ↔ r ≠ [] ∧ is_elem_at r d.
Proof.
  rewrite <- elem_of_elements. unfold descendants.
  destruct d as [s | tag a ch]; simpl.
  - split; [by intros ?%elem_of_nil | by intros [_ ?%elem_of_nil]].
  - rewrite elem_of_cons. split.
    + intros H. split; [| by right].
      apply elem_of_below in H as (? & ? & ? & -> & _). done.
    + intros [Hne [-> | H]]; done.
Qed.

Lemma has_class_at_is_elem c p d : has_class_at c p d → is_elem_at p d.
Proof.
  unfold has_class_at, is_elem_at.
  by destruct (label_at p d) as [[] |].
Qed.

Lemma is_elem_at_app p r d :
  is_elem_at (p ++ r) d ↔ ∃ n, lookup_node p d = Some n ∧ is_elem_at r n.
Proof.
  unfold is_elem_at at 1. rewrite label_at_app.
  destruct (lookup_node p d) as [n |]; simpl.
  - split; [intros H; by exists n | by intros (? & [= <-] & H)].
  - split; [done | by intros (? & ? & _)].
Qed.

End DomFacts.

(** ** Facts about the jQuery operations *)

Module JQueryFacts.
Import Dom JQuery Notions DomFacts.

Lemma elem_of_select c d p : p ∈ select c d ↔ has_class_at c p d.
Proof.
  unfold select. rewrite list_elem_of_filter, elem_of_elements.
  split; [by intros [? _] | intros H; split; [done |]].
  by eapply has_class_at_is_elem.
Qed.

Lemma split_last_nil_None p : split_last p = None ↔ p = [].
Proof.
  destruct p as [| k p]; simpl; [done |].
  by destruct (split_last p) as [[] |].
Qed.

Lemma split_last_spec p : ∀ q i, split_last p = Some (q, i) ↔ p = q ++ [i].
Proof.
  induction p as [| k p IH]; intros q i; simpl.
  - split; [done | by destruct q].
  - destruct (split_last p) as [[q' j] |] eqn:Hs.
    + pose proof (proj1 (IH q' j) eq_refl) as ->. split.
      * by intros [= <- <-].
      * destruct q as [| k' q]; simpl.
        -- intros [= _ H]. by destruct q'.
        -- intros [= <- H]. apply app_inj_tail in H as [-> ->]. done.
    + apply split_last_nil_None in Hs as ->. split.
      * by intros [= <- <-].
      * destruct q as [| k' q]; simpl; [by intros [= <-] |].
        intros [= _ H]. by destruct q.
Qed.

Lemma elem_of_siblings_of d t p : p ∈ siblings_of d t ↔ sibling d t p.
Proof.
  unfold siblings_of, sibling. split.
  - destruct (split_last t) as [[q i] |] eqn:Ht; [| by intros ?%elem_of_nil].
    apply split_last_spec in Ht as ->.
    destruct (lookup_node q d) as [[s | tag a ch] |]; try by intros ?%elem_of_nil.
    intros (j & -> & [[Hj He] _]%list_elem_of_filter)%list_elem_of_fmap.
    by exists q, i, j.
  - intros (q & i & j & -> & -> & Hj & He).
    rewrite (proj2 (split_last_spec (q ++ [i]) q i) eq_refl).
    pose proof He as (n & Hn & Hc)%is_elem_at_app.
    apply is_elem_at_cons in Hc as (tag & a & ch & c & -> & Hc & _).
    rewrite Hn. apply list_elem_of_fmap. exists j. split; [done |].
    apply list_elem_of_filter. split; [done |].
    apply elem_of_seq. apply lookup_lt_Some in Hc. lia.
Qed.

Lemma elem_of_siblings d S p :
  p ∈ siblings d S ↔ ∃ t, t ∈ S ∧ sibling d t p.
Proof.
  unfold siblings. rewrite elem_of_remove_dups, list_elem_of_bind.
  split; intros (t & H1 & H2); exists t.
  - by apply elem_of_siblings_of in H1.
  - by apply elem_of_siblings_of in H2.
Qed.

Lemma elem_of_find_in c d s p :
  p ∈ find_in c d s ↔ strictly_below s p ∧ has_class_at c p d.
Proof.
  unfold find_in, strictly_below. split.
  - destruct (lookup_node s d) as [n |]; [| by intros ?%elem_of_nil].
    intros [Hc (r & -> & [Hr _]%elem_of_descendants)%list_elem_of_fmap]%list_elem_of_filter.
    split; [by exists r | done].
  - intros [(r & Hr & ->) Hc].
    pose proof (has_class_at_is_elem _ _ _ Hc) as (n & Hn & He)%is_elem_at_app.
    rewrite Hn. apply list_elem_of_filter. split; [done |].
    apply list_elem_of_fmap. exists r. split; [done |].
    by apply elem_of_descendants.
Qed.

Lemma elem_of_find c d S p :
  p ∈ find c d S ↔ ∃ s, s ∈ S ∧ strictly_below s p ∧ has_class_at c p d.
Proof.
  unfold find. rewrite elem_of_remove_dups, list_elem_of_bind.
  split; intros (s & H1 & H2); exists s.
  - by apply elem_of_find_in in H1.
  - split; [by apply elem_of_find_in | tauto].
Qed.

(** *** Attribute writes *)

Lemma attr_cons k v p S d : attr k v (p :: S) d = attr k v S (setAttribute p k v d).
Proof. reflexivity. Qed.

Lemma set_label_attr_idemp k v l :
  set_label_attr k v (set_label_attr k v l) = set_label_attr k v l.
Proof. destruct l; simpl; [done |]. by rewrite insert_insert_eq. Qed.

(** [attr] rewrites the labels of the members of the collection and of no
    other node. *)
Lemma label_at_attr k v S : ∀ d q,
  label_at q (attr k v S d) =
  (if decide (q ∈ S) then set_label_attr k v else id) <$> label_at q d.
Proof.
  induction S as [| p S IH]; intros d q.
  - rewrite decide_False by apply not_elem_of_nil. simpl.
    by destruct (label_at q d).
  - rewrite attr_cons, IH, label_at_setAttribute.
    destruct (label_at q d) as [l |]; simpl; [| by repeat case_decide].
    f_equal. destruct (decide (q = p)) as [-> | Hqp].
    + rewrite (decide_True _ _ (list_elem_of_here p S)).
      case_decide; [apply set_label_attr_idemp | done].
    + destruct (decide (q ∈ S)) as [HS | HS].
      * by rewrite decide_True by by right.
      * rewrite decide_False; [done |]. by intros [? | ?]%elem_of_cons.
Qed.

End JQueryFacts.

(** ** Facts about the script *)

Module ScriptFacts.
Import Dom JQuery IngredientsMenu Notions DomFacts JQueryFacts.

(** *** Documents that differ in one attribute only *)

Lemma same_except_refl k d : same_except k d d.
Proof. by intros p. Qed.

Lemma same_except_sym k d d' : same_except k d d' → same_except k d' d.
Proof. intros H p. by rewrite H. Qed.

Lemma same_except_trans k d1 d2 d3 :
  same_except k d1 d2 → same_except k d2 d3 → same_except k d1 d3.
Proof. intros H1 H2 p. by rewrite H1. Qed.

Lemma erase_set_label_attr k v l : erase k (set_label_attr k v l) = erase k l.
Proof. destruct l; simpl; [done |]. by rewrite delete_insert_eq. Qed.

Lemma same_except_attr k v S d : same_except k (attr k v S d) d.
Proof.
  intros p. rewrite label_at_attr.
  destruct (label_at p d) as [l |]; simpl; [| done].
  case_decide; [by rewrite erase_set_label_attr | done].
Qed.

Section invariance.
Context (k : string) (d d' : node).
Hypothesis Hk : k ≠ "class".
Hypothesis Hdd : same_except k d d'.

Lemma same_except_is_elem_at p : is_elem_at p d = is_elem_at p d'.
Proof.
  specialize (Hdd p). unfold is_elem_at.
  destruct (label_at p d) as [[] |], (label_at p d') as [[] |]; by simplify_eq/=.
Qed.

Lemma same_except_has_class_at c p : has_class_at c p d = has_class_at c p d'.
Proof.
  specialize (Hdd p). unfold has_class_at.
  destruct (label_at p d) as [[s | tag a n] |],
           (label_at p d') as [[s' | tag' a' n'] |]; simplify_eq/=; try done.
  unfold has_class.
  assert (a !! "class" = a' !! "class") as ->; [| done].
  rewrite <- (lookup_delete_ne a k "class"), <- (lookup_delete_ne a' k "class") by done.
  by f_equal.
Qed.

Lemma same_except_sibling t s : sibling d t s ↔ sibling d' t s.
Proof.
  unfold sibling. by setoid_rewrite same_except_is_elem_at.
Qed.

Lemma same_except_select c p : p ∈ select c d ↔ p ∈ select c d'.
Proof. by rewrite !elem_of_select, same_except_has_class_at. Qed.

Lemma same_except_find_siblings c S p :
  p ∈ find c d (siblings d S) ↔ p ∈ find c d' (siblings d' S).
Proof.
  rewrite !elem_of_find. setoid_rewrite elem_of_siblings.
  setoid_rewrite same_except_sibling.
  by setoid_rewrite same_except_has_class_at.
Qed.
End invariance.

(** *** [updateImage] *)

Lemma elem_of_targets d div p :
  p ∈ targets d div ↔ ∃ t, t ∈ div ∧ image_of d t p.
Proof.
  unfold targets, image_of. rewrite elem_of_find.
  setoid_rewrite elem_of_siblings. naive_solver.
Qed.

Lemma label_at_updateImage div src d q :
  label_at q (updateImage div src d) =
  (if decide (q ∈ targets d div) then set_label_attr "src" src else id)
    <$> label_at q d.
Proof. apply label_at_attr. Qed.

Lemma same_except_updateImage div src d :
  same_except "src" (updateImage div src d) d.
Proof. apply same_except_attr. Qed.

Lemma targets_same_except d d' div p :
  same_except "src" d d' → p ∈ targets d div ↔ p ∈ targets d' div.
Proof. intros H. by apply same_except_find_siblings with "src". Qed.

Lemma getAttribute_updateImage_in div src d p :
  p ∈ targets d div → getAttribute p "src" (updateImage div src d) = Some src.
Proof.
  intros Hp. unfold getAttribute. rewrite label_at_updateImage.
  rewrite decide_True by done.
  apply elem_of_targets in Hp as (t & _ & s & _ & _ & Hc).
  unfold has_class_at in Hc.
  destruct (label_at p d) as [[| tag a n] |]; simpl in *; try done.
  apply lookup_insert_eq.
Qed.

Lemma label_at_updateImage_notin div src d p :
  p ∉ targets d div → label_at p (updateImage div src d) = label_at p d.
Proof.
  intros Hp. rewrite label_at_updateImage, decide_False by done.
  by destruct (label_at p d).
Qed.

(** Two collections with the same images behind them are updated alike. *)
Lemma updateImage_ext div div' src d :
  (∀ p, p ∈ targets d div ↔ p ∈ targets d div') →
  updateImage div src d = updateImage div' src d.
Proof.
  intros H. apply node_ext. intros p. rewrite !label_at_updateImage.
  destruct (decide (p ∈ targets d div)) as [Hp | Hp].
  - by rewrite decide_True by by apply H.
  - by rewrite decide_False by by rewrite <- H.
Qed.

(** Updating two collections in turn, with one URL, is updating both at
    once. *)
Lemma updateImage_app div1 div2 src d :
  updateImage div2 src (updateImage div1 src d) = updateImage (div1 ++ div2) src d.
Proof.
  apply node_ext. intros p. rewrite !label_at_updateImage.
  pose proof (targets_same_except _ _ div2 p (same_except_updateImage div1 src d)) as H2.
  assert (p ∈ targets d (div1 ++ div2) ↔ p ∈ targets d div1 ∨ p ∈ targets d div2) as H12.
  { rewrite !elem_of_targets. setoid_rewrite elem_of_app. naive_solver. }
  destruct (label_at p d) as [l |]; simpl; [| done]. f_equal.
  destruct (decide (p ∈ targets d div1)) as [H1 | H1];
    destruct (decide (p ∈ targets d div2)) as [H2' | H2'].
  - rewrite !decide_True by tauto. apply set_label_attr_idemp.
  - rewrite decide_False by tauto. by rewrite decide_True by tauto.
  - rewrite decide_True by tauto. by rewrite decide_True by tauto.
  - rewrite decide_False by tauto. by rewrite decide_False by tauto.
Qed.

Lemma updateImage_nil src d : updateImage [] src d = d.
Proof. reflexivity. Qed.

(** Element by element or all at once: the same document. *)
Lemma foldl_updateImage src cs : ∀ d,
  foldl (λ d' c, updateImage [c] src d') d cs = updateImage cs src d.
Proof.
  induction cs as [| c cs IH]; intros d; simpl; [done |].
  by rewrite IH, updateImage_app.
Qed.

(** *** Event delivery *)

Lemma callback_updateImage ty this d :
  callback ty this d = updateImage [this] (src_of ty) d.
Proof. by destruct ty. Qed.

Lemma foldl_callback ty (L : list (event_type * path)) :
  Forall (λ l, l.1 = ty) L →
  ∀ d, foldl (λ d' l, callback l.1 l.2 d') d L = updateImage (L.*2) (src_of ty) d.
Proof.
  induction 1 as [| l L Hl _ IH]; intros d; simpl; [done |].
  rewrite IH, Hl, callback_updateImage. apply updateImage_app.
Qed.

Lemma run_listeners_updateImage ty ls d cur :
  run_listeners ty ls d cur =
  updateImage ((filter (λ l, l = (ty, cur)) ls).*2) (src_of ty) d.
Proof.
  unfold run_listeners. apply foldl_callback.
  apply Forall_forall. by intros l [-> _]%list_elem_of_filter.
Qed.

(** One event amounts to one [updateImage], of the visited elements. *)
Lemma document_trigger e pg :
  document (trigger e pg) =
  updateImage (visited e.1 (listeners pg) e.2) (src_of e.1) (document pg).
Proof.
  unfold trigger, visited. simpl.
  generalize (propagation_path e.2) (document pg).
  intros cs. induction cs as [| c cs IH]; intros d; simpl; [done |].
  by rewrite IH, run_listeners_updateImage, updateImage_app.
Qed.

Lemma listeners_trigger e pg : listeners (trigger e pg) = listeners pg.
Proof. reflexivity. Qed.

Lemma elem_of_prefixes p : ∀ q, q ∈ prefixes p ↔ q `prefix_of` p.
Proof.
  induction p as [| i p IH]; intros q; simpl.
  - rewrite list_elem_of_singleton. split; [intros ->; done |].
    apply prefix_nil_inv.
  - rewrite elem_of_cons, list_elem_of_fmap. split.
    + intros [-> | (q' & -> & Hq')]; [apply prefix_nil |].
      apply prefix_cons. by apply IH.
    + intros Hq. destruct q as [| j q]; [by left | right].
      pose proof (prefix_cons_inv_1 _ _ _ _ Hq) as ->.
      exists q. split; [done |]. apply IH. by eapply prefix_cons_inv_2.
Qed.

Lemma elem_of_visited ty ls target t :
  t ∈ visited ty ls target ↔ t `prefix_of` target ∧ (ty, t) ∈ ls.
Proof.
  unfold visited, propagation_path. rewrite list_elem_of_bind.
  setoid_rewrite elem_of_reverse. setoid_rewrite elem_of_prefixes.
  setoid_rewrite list_elem_of_fmap. setoid_rewrite list_elem_of_filter.
  split.
  - by intros (cur & ([ty' t'] & -> & [= -> ->] & Hl) & Hcur).
  - intros [Ht Hl]. exists t. split; [| done]. by exists (ty, t).
Qed.

(** *** Pages reached by the script *)

Lemma same_except_ready d : same_except "src" (document (ready d)) d.
Proof. apply same_except_updateImage. Qed.

(** Both listeners are attached to exactly the toggles of the document. *)
Lemma listeners_ready d ty p : (ty, p) ∈ listeners (ready d) ↔ toggle d p.
Proof.
  unfold ready, on, toggle. simpl.
  rewrite elem_of_app, !list_elem_of_fmap.
  setoid_rewrite elem_of_select.
  setoid_rewrite (same_except_has_class_at "src" _ d ltac:(done)
                    (same_except_updateImage _ _ d)).
  split.
  - by intros [(q & [= _ ->] & H) | (q & [= _ ->] & H)].
  - intros H. destruct ty; [left | right]; by exists p.
Qed.

Lemma listeners_run d evs : listeners (run d evs) = listeners (ready d).
Proof.
  unfold run. induction evs as [| e evs IH] using rev_ind; [done |].
  by rewrite foldl_snoc, listeners_trigger.
Qed.

Lemma run_snoc d evs e : run d (evs ++ [e]) = trigger e (run d evs).
Proof. unfold run. by rewrite foldl_snoc. Qed.

Lemma same_except_run d evs : same_except "src" (document (run d evs)) d.
Proof.
  induction evs as [| e evs IH] using rev_ind; [apply same_except_ready |].
  rewrite run_snoc, document_trigger.
  eapply same_except_trans; [apply same_except_updateImage | done].
Qed.

Lemma image_of_same_except d d' t p :
  same_except "src" d d' → image_of d t p ↔ image_of d' t p.
Proof.
  intros H. pose proof (targets_same_except d d' [t] p H) as Ht.
  rewrite !elem_of_targets in Ht. set_solver.
Qed.

(** *** The image of a toggle along a run *)

Lemma reaches_spec d p e :
  reaches d p e ↔ ∃ t, toggle d t ∧ t `prefix_of` e.2 ∧ image_of d t p.
Proof.
  unfold reaches. rewrite elem_of_targets.
  setoid_rewrite elem_of_visited. setoid_rewrite listeners_ready.
  naive_solver.
Qed.

Lemma targets_run d evs e p :
  p ∈ targets (document (run d evs)) (visited e.1 (listeners (run d evs)) e.2)
  ↔ reaches d p e.
Proof.
  rewrite listeners_run. apply targets_same_except, same_except_run.
Qed.

(** [ready] puts the collapsed icon on every image of every toggle. *)
Lemma ready_sets_images d t p :
  toggle d t → image_of d t p →
  getAttribute p "src" (document (ready d)) = Some COLLAPSED_SRC.
Proof.
  intros Ht Hp. apply getAttribute_updateImage_in, elem_of_targets.
  exists t. split; [by apply elem_of_select | done].
Qed.

(** An event that a toggle receives sets the icon of the event on every
    image of that toggle, whatever happened before. *)
Lemma trigger_sets_images d evs ty target t p :
  toggle d t → t `prefix_of` target → image_of d t p →
  getAttribute p "src" (document (trigger (ty, target) (run d evs)))
  = Some (src_of ty).
Proof.
  intros Ht Hpre Hp. rewrite document_trigger.
  apply getAttribute_updateImage_in, targets_run, reaches_spec. by exists t.
Qed.

(** The [src] of any node after a run: the icon of the last event that
    reached it, and what [ready] left there if no event did. *)
Lemma src_after_run d evs p :
  getAttribute p "src" (document (run d evs)) =
  match last (filter (reaches d p) evs) with
  | Some e => Some (src_of e.1)
  | None => getAttribute p "src" (document (ready d))
  end.
Proof.
  induction evs as [| e evs IH] using rev_ind; [done |].
  rewrite run_snoc, filter_app, document_trigger.
  destruct (decide (reaches d p e)) as [He | He].
  - rewrite (filter_cons_True _ _ _ He), filter_nil, last_snoc.
    by apply getAttribute_updateImage_in, targets_run.
  - rewrite (filter_cons_False _ _ _ He), filter_nil, app_nil_r, <- IH.
    unfold getAttribute. rewrite label_at_updateImage_notin; [done |].
    by rewrite targets_run.
Qed.

End ScriptFacts.

(** ** Facts about the transition relation *)

Module SemanticsFacts.
Import Dom JQuery IngredientsMenu Semantics.

Lemma invoke_callback ty this d d' : invoke ty this d d' ↔ d' = callback ty this d.
Proof.
  split; [by destruct 1 | intros ->]. destruct ty; constructor.
Qed.

Lemma at_element_run_listeners ty cur ls : ∀ d d',
  at_element ty cur ls d d' ↔ d' = run_listeners ty ls d cur.
Proof.
  unfold run_listeners. induction ls as [| l ls IH]; intros d d'.
  - split; [by inversion 1 | intros ->; constructor].
  - destruct (decide (l = (ty, cur))) as [-> | Hl].
    + rewrite filter_cons_True by done. simpl. split.
      * inversion 1 as [| | ls' d0 d1 d0' Hinv Hrest]; simplify_eq/=.
        apply invoke_callback in Hinv as ->. by apply IH.
      * intros ->. eapply at_call; [by apply invoke_callback | by apply IH].
    + rewrite filter_cons_False by done. split.
      * inversion 1; simplify_eq/=. by apply IH.
      * intros ->. apply at_skip; [done | by apply IH].
Qed.

Lemma bubble_foldl ty ls cs : ∀ d d',
  bubble ty ls cs d d' ↔ d' = foldl (run_listeners ty ls) d cs.
Proof.
  induction cs as [| c cs IH]; intros d d'; simpl.
  - split; [by inversion 1 | intros ->; constructor].
  - split.
    + inversion 1 as [| c' cs' d0 d1 d0' Hat Hrest]; simplify_eq/=.
      apply at_element_run_listeners in Hat as ->. by apply IH.
    + intros ->. eapply bubble_visit; [by apply at_element_run_listeners |].
      by apply IH.
Qed.

Lemma step_trigger pg e pg' : step pg e pg' ↔ pg' = trigger e pg.
Proof.
  split.
  - destruct 1 as [pg ty target d' H]. apply bubble_foldl in H as ->. done.
  - intros ->. destruct e as [ty target]. constructor. by apply bubble_foldl.
Qed.

Lemma steps_foldl evs : ∀ pg pg',
  steps pg evs pg' ↔ pg' = foldl (λ pg0 e, trigger e pg0) pg evs.
Proof.
  induction evs as [| e evs IH]; intros pg pg'; simpl.
  - split; [by inversion 1 | intros ->; constructor].
  - split.
    + inversion 1 as [| pg0 e0 pg1 evs0 pg0' Hs Hrest]; simplify_eq/=.
      apply step_trigger in Hs as ->. by apply IH.
    + intros ->. eapply steps_next; [by apply step_trigger | by apply IH].
Qed.

(** The function [run] computes the one execution there is. *)
Lemma execution_run d evs pg : execution d evs pg ↔ pg = run d evs.
Proof. apply steps_foldl. Qed.

End SemanticsFacts.

(** ** Facts about whole runs *)

Module RunFacts.
Import Dom JQuery IngredientsMenu Notions Images.
Import DomFacts JQueryFacts ScriptFacts.

Lemma set_label_attr_overwrite k v1 v2 l :
  set_label_attr k v2 (set_label_attr k v1 l) = set_label_attr k v2 l.
Proof. destruct l; simpl; [done |]. by rewrite insert_insert_eq. Qed.

Lemma elem_of_ready_targets d p :
  p ∈ ready_targets d ↔ ∃ t, toggle d t ∧ image_of d t p.
Proof.
  unfold ready_targets. rewrite elem_of_targets.
  by setoid_rewrite elem_of_select.
Qed.

Lemma elem_of_event_targets d e p : p ∈ event_targets d e ↔ reaches d p e.
Proof. reflexivity. Qed.

Lemma reaches_ready_targets d p e : reaches d p e → p ∈ ready_targets d.
Proof.
  intros (t & Ht & _ & Hp)%reaches_spec.
  apply elem_of_ready_targets. by exists t.
Qed.

(** A page is its document and its listeners; an event replaces the
    document by one [updateImage] of it. *)
Lemma trigger_page e pg :
  trigger e pg =
  Page (updateImage (visited e.1 (listeners pg) e.2) (src_of e.1) (document pg))
       (listeners pg).
Proof. by rewrite <- document_trigger. Qed.

(** Two updates in a row, seen at one node. *)
Lemma label_at_updateImage_twice V1 s1 V2 s2 d p :
  label_at p (updateImage V2 s2 (updateImage V1 s1 d)) =
  (if decide (p ∈ targets d V2) then set_label_attr "src" s2 else id) <$>
    ((if decide (p ∈ targets d V1) then set_label_attr "src" s1 else id) <$>
       label_at p d).
Proof.
  rewrite label_at_updateImage.
  pose proof (targets_same_except _ _ V2 p (same_except_updateImage V1 s1 d)) as H.
  rewrite label_at_updateImage.
  destruct (decide (p ∈ targets d V2)) as [H2 | H2].
  - by rewrite decide_True by by apply H.
  - by rewrite decide_False by by rewrite H.
Qed.

(** The label of any node after any run. *)
Lemma label_at_run d evs p :
  label_at p (document (run d evs)) =
  (if decide (p ∈ ready_targets d)
   then set_label_attr "src" (last_src (filter (reaches d p) evs))
   else id) <$> label_at p d.
Proof.
  induction evs as [| e evs IH] using rev_ind.
  - apply label_at_updateImage.
  - rewrite run_snoc, filter_app, document_trigger, label_at_updateImage, IH.
    destruct (decide (reaches d p e)) as [He | He].
    + rewrite decide_True by by apply targets_run.
      rewrite (filter_cons_True _ _ _ He), filter_nil.
      pose proof (reaches_ready_targets d p e He) as Hp.
      rewrite !(decide_True _ _ Hp).
      replace (last_src (filter (reaches d p) evs ++ [e])) with (src_of e.1)
        by (unfold last_src; by rewrite last_snoc).
      destruct (label_at p d) as [l |]; simpl; [| done].
      by rewrite set_label_attr_overwrite.
    + rewrite decide_False by by rewrite targets_run.
      rewrite (filter_cons_False _ _ _ He), filter_nil, app_nil_r.
      by destruct (label_at p d).
Qed.

(** The [src] of an image of a toggle after any run. *)
Lemma src_of_image_run d evs p :
  p ∈ ready_targets d →
  getAttribute p "src" (document (run d evs))
  = Some (last_src (filter (reaches d p) evs)).
Proof.
  intros Hp. unfold getAttribute. rewrite label_at_run, decide_True by done.
  apply elem_of_ready_targets in Hp as (t & _ & s & _ & _ & Hc).
  unfold has_class_at in Hc.
  destruct (label_at p d) as [[| tag a n] |]; simpl in *; try done.
  apply lookup_insert_eq.
Qed.

Lemma last_src_cases evs :
  last_src evs = COLLAPSED_SRC ∨ last_src evs = EXPANDED_SRC.
Proof.
  unfold last_src. destruct (last evs) as [[[] x] |]; simpl; auto.
Qed.

(** *** Enumerations without repetition *)

Lemma NoDup_below f l :
  (∀ j c, l !! j = Some c → NoDup (f c)) → ∀ i, NoDup (below f i l).
Proof.
  induction l as [| c l IH]; intros Hf i; simpl; [constructor |].
  apply NoDup_app. split_and!.
  - apply (NoDup_fmap_2 (cons i)), (Hf 0 c eq_refl).
  - intros x (r & -> & _)%list_elem_of_fmap (j & r' & c' & [= Hi _] & _)%elem_of_below.
    lia.
  - apply IH. intros j c' Hj. apply (Hf (S j) c' Hj).
Qed.

Lemma NoDup_elements d : NoDup (elements d).
Proof.
  induction d as [s | tag a ch IH] using node_ind'; simpl; [constructor |].
  apply NoDup_cons. split.
  - by intros (j & r' & c & ? & _)%elem_of_below.
  - by apply NoDup_below.
Qed.

Lemma NoDup_select c d : NoDup (select c d).
Proof. apply NoDup_filter, NoDup_elements. Qed.

Lemma NoDup_listeners_ready d : NoDup (listeners (ready d)).
Proof.
  unfold ready, on. simpl. apply NoDup_app. split_and!.
  - apply (NoDup_fmap_2 (λ p, (show_bs_collapse, p))), NoDup_select.
  - by intros x (q & -> & _)%list_elem_of_fmap (q' & [=] & _)%list_elem_of_fmap.
  - apply (NoDup_fmap_2 (λ p, (hide_bs_collapse, p))), NoDup_select.
Qed.

(** *** Pages of a document *)

Lemma page_of_ready d : page_of d (ready d).
Proof. split; [done | apply same_except_ready]. Qed.

Lemma page_of_trigger d e pg : page_of d pg → page_of d (trigger e pg).
Proof.
  intros [Hl Hd]. split; [done |]. rewrite document_trigger.
  eapply same_except_trans; [apply same_except_updateImage | done].
Qed.

Lemma page_of_run d evs : page_of d (run d evs).
Proof. split; [apply listeners_run | apply same_except_run]. Qed.

Lemma page_eq pg1 pg2 :
  document pg1 = document pg2 → listeners pg1 = listeners pg2 → pg1 = pg2.
Proof. destruct pg1, pg2. simpl. by intros -> ->. Qed.

(** One event, seen at one node. *)
Lemma label_at_trigger d e pg p :
  page_of d pg →
  label_at p (document (trigger e pg)) =
  (if decide (reaches d p e) then set_label_attr "src" (src_of e.1) else id)
    <$> label_at p (document pg).
Proof.
  intros [Hl Hd]. rewrite document_trigger, label_at_updateImage, Hl.
  pose proof (targets_same_except _ _
                (visited e.1 (listeners (ready d)) e.2) p Hd) as H.
  destruct (decide (reaches d p e)) as [He | He].
  - by rewrite decide_True by by apply H.
  - by rewrite decide_False by by rewrite H.
Qed.

Lemma reaches_any_type d p ty1 ty2 x :
  reaches d p (ty1, x) → reaches d p (ty2, x).
Proof. rewrite !reaches_spec. done. Qed.

(** *** The last event that reaches an image *)

Lemma received_reaches d p e : received d p e ↔ reaches d p e.
Proof. symmetry. apply reaches_spec. Qed.

Lemma filter_none {A} (P : A → Prop) `{!∀ x, Decision (P x)} (l : list A) :
  Forall (λ x, ¬ P x) l → filter P l = [].
Proof.
  induction 1 as [| x l Hx _ IH]; [done |].
  by rewrite filter_cons_False.
Qed.

Lemma last_src_snoc evs e : last_src (evs ++ [e]) = src_of e.1.
Proof. unfold last_src. by rewrite last_snoc. Qed.

Lemma last_src_filter_split d p pre e post :
  received d p e → Forall (λ e', ¬ received d p e') post →
  last_src (filter (reaches d p) (pre ++ e :: post)) = src_of e.1.
Proof.
  intros He%received_reaches Hpost.
  rewrite filter_app, (filter_cons_True _ _ _ He).
  rewrite (filter_none (reaches d p) post).
  - apply last_src_snoc.
  - eapply Forall_impl; [exact Hpost |]. intros e' Hn Hr.
    by apply Hn, received_reaches.
Qed.

(** When [p] is an image of [t] alone, the events that reach [p] are the
    events that [t] receives. *)
Lemma filter_reaches_sole_toggle d (evs : list event) t p :
  toggle d t → image_of d t p →
  (∀ t', toggle d t' → image_of d t' p → t' = t) →
  filter (reaches d p) evs = filter (λ e : event, t `prefix_of` e.2) evs.
Proof.
  intros Ht Hp Hsole. apply list_filter_iff. intros e. rewrite reaches_spec.
  split.
  - intros (t' & Ht' & Hpre & Hp'). by rewrite <- (Hsole t' Ht' Hp').
  - intros Hpre. by exists t.
Qed.

(** *** Documents that differ in the [src] of their images *)

Lemma set_label_attr_erase k v l l' :
  erase k l = erase k l' → set_label_attr k v l = set_label_attr k v l'.
Proof.
  destruct l as [s | tag a n], l' as [s' | tag' a' n']; simpl; intros [=]; subst;
    [done |].
  f_equal. rewrite <- (insert_delete_eq a), <- (insert_delete_eq a'). congruence.
Qed.

Lemma toggle_same_except d d' t :
  same_except "src" d d' → toggle d t ↔ toggle d' t.
Proof.
  intros H. unfold toggle.
  by rewrite (same_except_has_class_at "src" d d' ltac:(done) H).
Qed.

Lemma reaches_same_except d d' p e :
  same_except "src" d d' → reaches d p e ↔ reaches d' p e.
Proof.
  intros H. rewrite !reaches_spec. split.
  - intros (t & Ht & Hpre & Hp). exists t. split_and!; [| done |].
    + by apply (toggle_same_except d d').
    + by apply (image_of_same_except d d').
  - intros (t & Ht & Hpre & Hp). exists t. split_and!; [| done |].
    + by apply (toggle_same_except d d').
    + by apply (image_of_same_except d d').
Qed.

Lemma ready_targets_same_except d d' p :
  same_except "src" d d' → p ∈ ready_targets d ↔ p ∈ ready_targets d'.
Proof.
  intros H. rewrite !elem_of_ready_targets. split.
  - intros (t & Ht & Hp). exists t. split.
    + by apply (toggle_same_except d d').
    + by apply (image_of_same_except d d').
  - intros (t & Ht & Hp). exists t. split.
    + by apply (toggle_same_except d d').
    + by apply (image_of_same_except d d').
Qed.

(** Two documents that differ at most in the [src] of images of toggles,
    and two event sequences whose last event reaching each image has the
    same icon, end in the same document. *)
Lemma document_run_agree d1 d2 evs1 evs2 :
  same_except "src" d1 d2 →
  (∀ p, p ∉ ready_targets d1 → label_at p d1 = label_at p d2) →
  (∀ p, p ∈ ready_targets d1 →
        last_src (filter (reaches d1 p) evs1)
        = last_src (filter (reaches d1 p) evs2)) →
  document (run d1 evs1) = document (run d2 evs2).
Proof.
  intros Hsame Hrest Hlast. apply node_ext. intros p. rewrite !label_at_run.
  rewrite <- (list_filter_iff (reaches d1 p) (reaches d2 p) evs2)
    by (intros e; by apply reaches_same_except).
  destruct (decide (p ∈ ready_targets d1)) as [Hp | Hp].
  - rewrite decide_True by by apply (ready_targets_same_except d1 d2).
    rewrite (Hlast p Hp). specialize (Hsame p).
    destruct (label_at p d1) as [l1 |], (label_at p d2) as [l2 |];
      simplify_eq/=; [| done].
    f_equal. by apply set_label_attr_erase.
  - rewrite decide_False by by rewrite <- (ready_targets_same_except d1 d2).
    by rewrite (Hrest p Hp).
Qed.

(** The listeners [ready] registers are read off the document it leaves. *)
Lemma listeners_ready_document d :
  listeners (ready d) =
  on hide_bs_collapse (select "update-on-expand" (document (ready d)))
    (on show_bs_collapse (select "update-on-expand" (document (ready d))) []).
Proof. reflexivity. Qed.

Lemma run_agree d1 d2 evs1 evs2 :
  same_except "src" d1 d2 →
  (∀ p, p ∉ ready_targets d1 → label_at p d1 = label_at p d2) →
  (∀ p, p ∈ ready_targets d1 →
        last_src (filter (reaches d1 p) evs1)
        = last_src (filter (reaches d1 p) evs2)) →
  run d1 evs1 = run d2 evs2.
Proof.
  intros Hsame Hrest Hlast. apply page_eq.
  - by apply document_run_agree.
  - rewrite !listeners_run, !listeners_ready_document.
    pose proof (document_run_agree d1 d2 [] [] Hsame Hrest (λ _ _, eq_refl)) as H.
    change (document (ready d1) = document (ready d2)) in H. by rewrite H.
Qed.

Lemma same_except_setAttribute k v q d : same_except k (setAttribute q k v d) d.
Proof.
  intros p. rewrite label_at_setAttribute.
  destruct (label_at p d) as [l |]; simpl; [| done].
  case_decide; [by rewrite erase_set_label_attr | done].
Qed.

(** An image of [t] does not lie in the subtree of [t]. *)
Lemma image_of_not_below d t p : image_of d t p → ¬ t `prefix_of` p.
Proof.
  intros (s & (q & i & j & -> & -> & Hij & _) & (r & _ & ->) & _) [k Hk].
  rewrite <- !app_assoc in Hk. apply app_inv_head in Hk.
  injection Hk as Hji _. done.
Qed.

Lemma updateImage_unchanged div src d :
  (∀ p, p ∉ targets d div) → updateImage div src d = d.
Proof.
  intros H. apply node_ext. intros p. by apply label_at_updateImage_notin.
Qed.

End RunFacts.

(** ** The properties of the component *)

Module Properties.
Import Dom JQuery IngredientsMenu Notions Images.
Import DomFacts JQueryFacts ScriptFacts RunFacts.
Import Semantics SemanticsFacts Sample.

(** *** Evaluation on the sample page *)

Example select_menu :
  select "update-on-expand" menu = [body_of_panel; body_of_bare].
Proof. vm_compute. reflexivity. Qed.

Example targets_body_of_panel : targets menu [body_of_panel] = [icon_of_panel].
Proof. vm_compute. reflexivity. Qed.

Example targets_body_of_bare : targets menu [body_of_bare] = [].
Proof. vm_compute. reflexivity. Qed.

Example src_after_ready :
  getAttribute icon_of_panel "src" (document (ready menu)) = Some COLLAPSED_SRC.
Proof. vm_compute. reflexivity. Qed.

Example src_after_show :
  getAttribute icon_of_panel "src"
    (document (run menu [(show_bs_collapse, body_of_panel)])) = Some EXPANDED_SRC.
Proof. vm_compute. reflexivity. Qed.

Example src_of_direct_sibling_after_show :
  getAttribute image_next_to_body "src"
    (document (run menu [(show_bs_collapse, body_of_panel)])) = None.
Proof. vm_compute. reflexivity. Qed.

Lemma toggle_body_of_panel : toggle menu body_of_panel.
Proof. vm_compute. exact I. Qed.

Lemma toggle_body_of_bare : toggle menu body_of_bare.
Proof. vm_compute. exact I. Qed.

Lemma sibling_heading : sibling menu body_of_panel [0; 0].
Proof. exists [0], 1, 0. split_and!; [done .. |]. vm_compute. exact I. Qed.

Lemma image_of_body_of_panel : image_of menu body_of_panel icon_of_panel.
Proof.
  exists [0; 0]. split_and!.
  - apply sibling_heading.
  - by exists [1].
  - vm_compute. exact I.
Qed.

Lemma no_image_of_body_of_bare p : ¬ image_of menu body_of_bare p.
Proof.
  intros H. assert (p ∈ targets menu [body_of_bare]) as Hp.
  { apply elem_of_targets. exists body_of_bare. split; [by left | done]. }
  rewrite targets_body_of_bare in Hp. by apply elem_of_nil in Hp.
Qed.

(** *** Expand and collapse *)

(** C1.  Let [t] be a toggle (an element of class [update-on-expand]
    present at load) and [p] an image of [t] (an element of class
    [update-image] strictly below a sibling of [t]).  After a
    [show.bs.collapse] event fired on [t], in whatever state the page was,
    the [src] of [p] is the expanded icon URL. *)
Theorem show_sets_expanded_src d evs t p :
  toggle d t → image_of d t p →
  getAttribute p "src" (document (trigger (show_bs_collapse, t) (run d evs)))
  = Some EXPANDED_SRC.
Proof.
  intros Ht Hp. by apply (trigger_sets_images d evs show_bs_collapse t t p).
Qed.

Lemma show_sets_expanded_src_witness :
  getAttribute icon_of_panel "src"
    (document (trigger (show_bs_collapse, body_of_panel)
                 (run menu [(hide_bs_collapse, body_of_bare)])))
  = Some EXPANDED_SRC.
Proof.
  apply (show_sets_expanded_src menu [(hide_bs_collapse, body_of_bare)]
           body_of_panel icon_of_panel).
  - apply toggle_body_of_panel.
  - apply image_of_body_of_panel.
Defined.

(** C2.  With [t] and [p] as above, after a [hide.bs.collapse] event fired
    on [t] the [src] of [p] is the collapsed icon URL, whatever events came
    before. *)
Theorem hide_sets_collapsed_src d evs t p :
  toggle d t → image_of d t p →
  getAttribute p "src" (document (trigger (hide_bs_collapse, t) (run d evs)))
  = Some COLLAPSED_SRC.
Proof.
  intros Ht Hp. by apply (trigger_sets_images d evs hide_bs_collapse t t p).
Qed.

Lemma hide_sets_collapsed_src_witness :
  getAttribute icon_of_panel "src"
    (document (trigger (hide_bs_collapse, body_of_panel)
                 (run menu [(show_bs_collapse, body_of_panel)])))
  = Some COLLAPSED_SRC.
Proof.
  apply (hide_sets_collapsed_src menu [(show_bs_collapse, body_of_panel)]
           body_of_panel icon_of_panel).
  - apply toggle_body_of_panel.
  - apply image_of_body_of_panel.
Defined.

(** C3.  After [ready], and before any event, every image of every toggle
    of the loaded document has the collapsed icon URL as its [src]. *)
Theorem ready_sets_collapsed_src d t p :
  toggle d t → image_of d t p →
  getAttribute p "src" (document (ready d)) = Some COLLAPSED_SRC.
Proof.
  intros Ht Hp. by apply (ready_sets_images d t p).
Qed.

Lemma ready_sets_collapsed_src_witness :
  getAttribute icon_of_panel "src" (document (ready menu)) = Some COLLAPSED_SRC.
Proof.
  apply (ready_sets_collapsed_src menu body_of_panel icon_of_panel).
  - apply toggle_body_of_panel.
  - apply image_of_body_of_panel.
Defined.

(** C4, as the specification has it: after any sequence of events the
    [src] of an image of a toggle is the icon of the last event that this
    toggle received.  On the page [shared] the image in the heading is an
    image of both collapsible bodies.  The first body receives an expand
    event and nothing after it, so the claim asks for the expanded icon;
    the collapse of the second body has put the collapsed one there. *)
Lemma last_event_of_toggle_not_decisive :
  toggle shared [0; 0] ∧
  image_of shared [0; 0] [0; 2; 0] ∧
  last_src (filter (λ e : event, [0; 0] `prefix_of` e.2)
              [(show_bs_collapse, [0; 0]); (hide_bs_collapse, [0; 1])])
  = EXPANDED_SRC ∧
  getAttribute [0; 2; 0] "src"
    (document (run shared [(show_bs_collapse, [0; 0]);
                           (hide_bs_collapse, [0; 1])]))
  = Some COLLAPSED_SRC ∧
  Some COLLAPSED_SRC ≠ Some EXPANDED_SRC.
Proof.
  split_and!.
  - vm_compute. exact I.
  - exists [0; 2]. split_and!; [| by exists [0] | vm_compute; exact I].
    exists [0], 0, 2. split_and!; [done .. |]. vm_compute. exact I.
  - vm_compute. reflexivity.
  - vm_compute. reflexivity.
  - discriminate.
Qed.

(** C4, amended.  Let [p] be an image of toggle [t] and [evs] any finite
    sequence of expand and collapse events delivered after [ready], fired
    anywhere in the document.  The [src] of [p] after the sequence is
    determined solely by the last event of [evs] received by a toggle that
    has [p] as an image: it is the icon of that event, the expanded URL
    after an expand and the collapsed URL after a collapse, and it is the
    collapsed URL when no event of [evs] was received by such a toggle.
    When [t] is the only toggle that has [p] as an image, this is the last
    event that [t] received. *)
Theorem src_matches_last_received_event d evs t p :
  toggle d t → image_of d t p →
  (∀ pre e post,
     evs = pre ++ e :: post →
     received d p e → Forall (λ e', ¬ received d p e') post →
     getAttribute p "src" (document (run d evs)) = Some (src_of e.1)) ∧
  (Forall (λ e', ¬ received d p e') evs →
   getAttribute p "src" (document (run d evs)) = Some COLLAPSED_SRC) ∧
  ((∀ t', toggle d t' → image_of d t' p → t' = t) →
   getAttribute p "src" (document (run d evs))
   = Some (last_src (filter (λ e : event, t `prefix_of` e.2) evs))).
Proof.
  intros Ht Hp.
  assert (getAttribute p "src" (document (run d evs))
          = Some (last_src (filter (reaches d p) evs))) as ->.
  { apply src_of_image_run, elem_of_ready_targets. by exists t. }
  split_and!.
  - intros pre e post -> He Hpost. f_equal. by apply last_src_filter_split.
  - intros Hnone. rewrite filter_none; [done |].
    eapply Forall_impl; [exact Hnone |]. intros e' Hn Hr.
    by apply Hn, received_reaches.
  - intros Hsole. by rewrite (filter_reaches_sole_toggle d evs t p).
Qed.

Lemma sole_toggle_of_icon t :
  toggle menu t → image_of menu t icon_of_panel → t = body_of_panel.
Proof.
  intros Ht%elem_of_select Hp. vm_compute in Ht.
  apply elem_of_cons in Ht as [-> | ->%list_elem_of_singleton]; [done |].
  by destruct (no_image_of_body_of_bare icon_of_panel).
Qed.

Lemma src_matches_last_received_event_witness :
  getAttribute icon_of_panel "src"
    (document (run menu [(show_bs_collapse, body_of_panel);
                         (show_bs_collapse, body_of_bare);
                         (hide_bs_collapse, body_of_bare)]))
  = Some (last_src (filter (λ e : event, body_of_panel `prefix_of` e.2)
                      [(show_bs_collapse, body_of_panel);
                       (show_bs_collapse, body_of_bare);
                       (hide_bs_collapse, body_of_bare)])).
Proof.
  destruct (src_matches_last_received_event menu
              [(show_bs_collapse, body_of_panel);
               (show_bs_collapse, body_of_bare);
               (hide_bs_collapse, body_of_bare)]
              body_of_panel icon_of_panel
              toggle_body_of_panel image_of_body_of_panel) as (_ & _ & H).
  apply H, sole_toggle_of_icon.
Defined.

(** *** Toggles without an image *)

Lemma updateImage_no_targets div src d :
  (∀ p, p ∉ targets d div) → updateImage div src d = d.
Proof.
  intros H. apply node_ext. intros p.
  by apply label_at_updateImage_notin.
Qed.

Lemma targets_nil_iff d div : targets d div = [] ↔ ∀ p, p ∉ targets d div.
Proof.
  split; [intros -> p; apply not_elem_of_nil |].
  intros H. destruct (targets d div) as [| p l]; [done |].
  destruct (H p). by left.
Qed.

(** C5.  A toggle [t] with no image (no element of class [update-image]
    strictly below any of its siblings) makes the script write nothing:
    the collection that [updateImage] computes for it is empty, both
    listeners return the document as they found it, [ready] produces the
    document it would produce were [t] not among the toggles, and when no
    toggle of the document has an image [ready] leaves the document
    unchanged.  All of this is computed without a failure case: every
    operation of the script is a total function. *)
Theorem no_image_no_mutation d t :
  (∀ p, ¬ image_of d t p) →
  targets d [t] = [] ∧
  on_show t d = d ∧
  on_hide t d = d ∧
  document (ready d) =
    updateImage (filter (λ x, x ≠ t) (select "update-on-expand" d))
      COLLAPSED_SRC d ∧
  ((∀ t' p, toggle d t' → ¬ image_of d t' p) → document (ready d) = d).
Proof.
  intros Hno.
  assert (∀ p, p ∉ targets d [t]) as Ht.
  { intros p (t' & ->%list_elem_of_singleton & Hp)%elem_of_targets.
    by apply (Hno p). }
  split_and!.
  - by apply targets_nil_iff.
  - by apply updateImage_no_targets.
  - by apply updateImage_no_targets.
  - apply updateImage_ext. intros p. rewrite !elem_of_targets. split.
    + intros (t' & Ht' & Hp). exists t'. split; [| done].
      apply list_elem_of_filter. split; [| done].
      intros ->. by apply (Hno p).
    + intros (t' & [_ Ht']%list_elem_of_filter & Hp). by exists t'.
  - intros Hall. apply updateImage_no_targets.
    intros p (t' & Ht'%elem_of_select & Hp)%elem_of_targets.
    by apply (Hall t' p).
Qed.

Lemma no_image_of_lonely_toggle p : ¬ image_of lonely [0; 0] p.
Proof.
  intros H. assert (p ∈ targets lonely [[0; 0]]) as Hp.
  { apply elem_of_targets. exists [0; 0]. split; [by left | done]. }
  vm_compute in Hp. by apply elem_of_nil in Hp.
Qed.

Lemma toggle_lonely t : toggle lonely t → t = [0; 0].
Proof.
  intros Ht%elem_of_select. vm_compute in Ht.
  by apply list_elem_of_singleton in Ht.
Qed.

Lemma no_image_no_mutation_witness :
  targets lonely [[0; 0]] = [] ∧
  on_show [0; 0] lonely = lonely ∧
  on_hide [0; 0] lonely = lonely ∧
  document (ready lonely) =
    updateImage (filter (λ x, x ≠ [0; 0]) (select "update-on-expand" lonely))
      COLLAPSED_SRC lonely ∧
  document (ready lonely) = lonely.
Proof.
  destruct (no_image_no_mutation lonely [0; 0] no_image_of_lonely_toggle)
    as (H1 & H2 & H3 & H4 & H5).
  split_and!; [done .. |]. apply H5.
  intros t' p ->%toggle_lonely. apply no_image_of_lonely_toggle.
Defined.

(** *** Where the script writes *)

Lemma image_of_not_sibling d t p : image_of d t p → ¬ sibling d t p.
Proof.
  intros (s & (q & i & j & -> & -> & _ & _) & (r & Hr & ->) & _)
         (q' & i' & j' & Ht & Hp & _).
  apply app_inj_tail in Ht as [<- _].
  rewrite <- app_assoc in Hp. apply app_inv_head in Hp.
  injection Hp as _ ->. done.
Qed.

Lemma label_changed_in_targets div src d p :
  label_at p (updateImage div src d) ≠ label_at p d → p ∈ targets d div.
Proof.
  intros H. destruct (decide (p ∈ targets d div)) as [| Hn]; [done |].
  destruct H. by apply label_at_updateImage_notin.
Qed.

(** C6, as the specification has it: a listener writes only to direct
    siblings of its toggle.  On the sample page the [show] listener of the
    collapsible body changes the [src] of the icon inside the heading,
    which is not a sibling of the body, and leaves alone the image that is
    one. *)
Lemma show_writes_below_a_sibling :
  getAttribute icon_of_panel "src" (on_show body_of_panel menu)
    ≠ getAttribute icon_of_panel "src" menu
  ∧ ¬ sibling menu body_of_panel icon_of_panel
  ∧ sibling menu body_of_panel image_next_to_body
  ∧ has_class_at "update-image" image_next_to_body menu
  ∧ getAttribute image_next_to_body "src" (on_show body_of_panel menu) = None.
Proof.
  split_and!.
  - vm_compute. discriminate.
  - apply image_of_not_sibling, image_of_body_of_panel.
  - exists [0], 1, 2. split_and!; [done .. |]. vm_compute. exact I.
  - vm_compute. exact I.
  - vm_compute. reflexivity.
Qed.

(** C6, amended.  Every node that a call of [updateImage] writes to or
    changes, at [ready] or in a listener, is an element of class
    [update-image] that lies strictly below a sibling of one of the
    elements of the collection passed in; it is never a direct sibling of
    that element. *)
Theorem mutation_targets_image_below_sibling div src d p :
  p ∈ targets d div ∨ label_at p (updateImage div src d) ≠ label_at p d →
  ∃ t s, t ∈ div ∧ sibling d t s ∧ strictly_below s p ∧
         has_class_at "update-image" p d ∧ ¬ sibling d t p.
Proof.
  intros H. assert (p ∈ targets d div) as (t & Ht & Hp)%elem_of_targets.
  { destruct H as [H | H]; [done | by eapply label_changed_in_targets]. }
  pose proof (image_of_not_sibling d t p Hp) as Hns.
  destruct Hp as (s & Hs & Hb & Hc). by exists t, s.
Qed.

Lemma mutation_targets_image_below_sibling_witness :
  ∃ t s, t ∈ [body_of_panel] ∧ sibling menu t s ∧
         strictly_below s icon_of_panel ∧
         has_class_at "update-image" icon_of_panel menu ∧
         ¬ sibling menu t icon_of_panel.
Proof.
  apply (mutation_targets_image_below_sibling [body_of_panel] EXPANDED_SRC menu
           icon_of_panel).
  right. intros H. apply (f_equal (λ o, match o with
                                 | Some (ElemL _ a _) => a !! "src"
                                 | _ => None
                                 end)) in H.
  vm_compute in H. discriminate H.
Defined.

(** C7.  One call of a listener leaves every node of the document in
    place, with its tag, its text and its children, and leaves every
    attribute other than [src] as it was; a node that is not an image of
    the toggle the listener runs on keeps its [src] as well. *)
Theorem listener_frame ty t d :
  same_except "src" (callback ty t d) d ∧
  (∀ p k, k ≠ "src" → getAttribute p k (callback ty t d) = getAttribute p k d) ∧
  (∀ p, ¬ image_of d t p → label_at p (callback ty t d) = label_at p d).
Proof.
  rewrite callback_updateImage. split_and!.
  - apply same_except_updateImage.
  - intros p k Hk. unfold getAttribute. rewrite label_at_updateImage.
    destruct (label_at p d) as [[s | tag a n] |]; simpl; [| | done].
    + by case_decide.
    + case_decide; simpl; [| done]. apply lookup_insert_ne. congruence.
  - intros p Hp. apply label_at_updateImage_notin.
    intros (t' & ->%list_elem_of_singleton & Hp')%elem_of_targets. done.
Qed.

Lemma listener_frame_witness :
  getAttribute icon_of_panel "class" (callback show_bs_collapse body_of_panel menu)
    = getAttribute icon_of_panel "class" menu ∧
  label_at icon_of_panel (callback hide_bs_collapse body_of_bare menu)
    = label_at icon_of_panel menu.
Proof.
  split.
  - destruct (listener_frame show_bs_collapse body_of_panel menu) as (_ & H & _).
    apply H. discriminate.
  - destruct (listener_frame hide_bs_collapse body_of_bare menu) as (_ & _ & H).
    apply H, no_image_of_body_of_bare.
Defined.

(** *** Determinism *)

(** C8.  The component is deterministic, and the page it reaches depends
    on nothing but the structure of the loaded document (its nodes,
    classes and the attributes other than the [src] of the images of
    toggles), the two listeners and [ready]: two runs end in the same
    page, document and listeners alike, whenever their documents agree up
    to the [src] of images of toggles and their event sequences agree, for
    each image, on the icon of the last event that reaches it.  Two runs
    from the same document with the same events are the instance in which
    all three conditions hold by reflexivity. *)
Theorem runs_agree d1 d2 evs1 evs2 pg1 pg2 :
  execution d1 evs1 pg1 → execution d2 evs2 pg2 →
  same_except "src" d1 d2 →
  (∀ p, p ∉ ready_targets d1 → label_at p d1 = label_at p d2) →
  (∀ p, p ∈ ready_targets d1 →
        last_src (filter (reaches d1 p) evs1)
        = last_src (filter (reaches d1 p) evs2)) →
  pg1 = pg2.
Proof.
  intros ->%execution_run ->%execution_run Hsame Hrest Hlast.
  by apply run_agree.
Qed.

Lemma ready_targets_menu p : p ∈ ready_targets menu → p = icon_of_panel.
Proof. intros H. vm_compute in H. by apply list_elem_of_singleton in H. Qed.

Lemma runs_agree_witness :
  run menu [(show_bs_collapse, body_of_panel);
            (hide_bs_collapse, body_of_panel);
            (show_bs_collapse, body_of_panel)]
  = run menu_with_src [(hide_bs_collapse, body_of_bare);
                       (show_bs_collapse, body_of_panel)].
Proof.
  apply (runs_agree menu menu_with_src
           [(show_bs_collapse, body_of_panel);
            (hide_bs_collapse, body_of_panel);
            (show_bs_collapse, body_of_panel)]
           [(hide_bs_collapse, body_of_bare);
            (show_bs_collapse, body_of_panel)]).
  - by apply execution_run.
  - by apply execution_run.
  - apply same_except_sym, same_except_setAttribute.
  - intros p Hp. unfold menu_with_src. rewrite label_at_setAttribute.
    rewrite decide_False; [by destruct (label_at p menu) |].
    intros ->. apply Hp. vm_compute. by left.
  - intros p ->%ready_targets_menu. vm_compute. reflexivity.
Defined.

(** Two runs from one document with one sequence of events: the instance
    of the statement above with equal documents and equal sequences. *)
Corollary same_run_same_page d evs pg1 pg2 :
  execution d evs pg1 → execution d evs pg2 → pg1 = pg2.
Proof.
  intros ->%execution_run ->%execution_run.
  apply run_agree; [apply same_except_refl | done | done].
Qed.

(** *** All the images, and twice is once *)

(** C9.  [updateImage] sets [src] on every element of class
    [update-image] strictly below any sibling of any element of the
    collection it is given; so one expand or collapse listener call on a
    toggle sets the icon of the event on all such elements below all the
    siblings of the toggle, not on a single designated image. *)
Theorem updateImage_sets_every_image div src d t s p :
  t ∈ div → sibling d t s → strictly_below s p →
  has_class_at "update-image" p d →
  getAttribute p "src" (updateImage div src d) = Some src.
Proof.
  intros Ht Hs Hb Hc. apply getAttribute_updateImage_in, elem_of_targets.
  exists t. split; [done |]. by exists s.
Qed.

Example targets_double : targets double [[0; 1]] = [[0; 0; 0]; [0; 2; 0; 0]].
Proof. vm_compute. reflexivity. Qed.

Lemma updateImage_sets_every_image_witness :
  getAttribute [0; 2; 0; 0] "src" (on_show [0; 1] double) = Some EXPANDED_SRC.
Proof.
  apply (updateImage_sets_every_image [[0; 1]] EXPANDED_SRC double
           [0; 1] [0; 2] [0; 2; 0; 0]).
  - by left.
  - exists [0], 1, 2. split_and!; [done .. |]. vm_compute. exact I.
  - by exists [0; 0].
  - vm_compute. exact I.
Defined.

(** C10.  [updateImage] is idempotent: applied a second time to the same
    collection with the same URL it returns the document unchanged.
    Hence an event delivered a second time leaves the page as the first
    delivery made it. *)
Theorem updateImage_idempotent div src d e pg :
  updateImage div src (updateImage div src d) = updateImage div src d ∧
  trigger e (trigger e pg) = trigger e pg.
Proof.
  assert (∀ div' src' d', updateImage div' src' (updateImage div' src' d')
                          = updateImage div' src' d') as Hidem.
  { intros div' src' d'. rewrite updateImage_app. apply updateImage_ext.
    intros p. rewrite !elem_of_targets. setoid_rewrite elem_of_app.
    naive_solver. }
  split; [apply Hidem |].
  destruct (trigger e (trigger e pg)) as [d2 l2] eqn:H2.
  destruct (trigger e pg) as [d1 l1] eqn:H1.
  apply (f_equal document) in H2 as Hd2. apply (f_equal listeners) in H2 as Hl2.
  apply (f_equal document) in H1 as Hd1. apply (f_equal listeners) in H1 as Hl1.
  rewrite document_trigger in Hd2, Hd1. rewrite listeners_trigger in Hl2, Hl1.
  simpl in *. subst. f_equal. apply Hidem.
Qed.

End Properties.

(** ** Further properties of the script *)

Module Further.
Import Dom JQuery IngredientsMenu Notions Images Sample.
Import DomFacts JQueryFacts ScriptFacts RunFacts.

Lemma toggle_menu_body : toggle menu body_of_panel.
Proof. vm_compute. exact I. Qed.

Lemma image_of_menu_body : image_of menu body_of_panel icon_of_panel.
Proof.
  exists [0; 0]. split_and!; [| by exists [1] | vm_compute; exact I].
  exists [0], 1, 0. split_and!; [done .. |]. vm_compute. exact I.
Qed.

(** *** What a run keeps *)

(** X1.  Whatever events are delivered, the document keeps its nodes, tags,
    texts and child lists, and every attribute other than [src]; so the
    toggles and their images are the same at every moment of a run. *)
Theorem run_keeps_structure d evs :
  same_except "src" (document (run d evs)) d ∧
  (∀ p k, k ≠ "src" →
     getAttribute p k (document (run d evs)) = getAttribute p k d) ∧
  (∀ t, toggle (document (run d evs)) t ↔ toggle d t) ∧
  (∀ t p, image_of (document (run d evs)) t p ↔ image_of d t p).
Proof.
  split_and!.
  - apply same_except_run.
  - intros p k Hk. unfold getAttribute. rewrite label_at_run.
    destruct (label_at p d) as [[s | tag a n] |]; simpl; [| | done].
    + by case_decide.
    + case_decide; simpl; [| done]. apply lookup_insert_ne. congruence.
  - intros t. unfold toggle.
    by rewrite (same_except_has_class_at "src" _ d ltac:(done)
                  (same_except_run d evs)).
  - intros t p. apply image_of_same_except, same_except_run.
Qed.

Lemma run_keeps_structure_witness :
  getAttribute icon_of_panel "class"
    (document (run menu [(show_bs_collapse, body_of_panel)]))
  = getAttribute icon_of_panel "class" menu.
Proof.
  destruct (run_keeps_structure menu [(show_bs_collapse, body_of_panel)])
    as (_ & H & _).
  apply H. discriminate.
Defined.

(** X2.  A node that is not an image of any toggle is never touched: after
    any run it has the label, [src] included, that it had at load. *)
Theorem run_leaves_other_nodes d evs p :
  (∀ t, toggle d t → ¬ image_of d t p) →
  label_at p (document (run d evs)) = label_at p d.
Proof.
  intros H. rewrite label_at_run, decide_False; [by destruct (label_at p d) |].
  intros (t & Ht & Hp)%elem_of_ready_targets. by apply (H t).
Qed.

Lemma not_image_next_to_body t :
  toggle menu t → ¬ image_of menu t image_next_to_body.
Proof.
  intros Ht Hp.
  assert (image_next_to_body ∈ ready_targets menu) as H.
  { apply elem_of_ready_targets. by exists t. }
  vm_compute in H. apply list_elem_of_singleton in H. discriminate H.
Qed.

Lemma run_leaves_other_nodes_witness :
  label_at image_next_to_body
    (document (run menu [(show_bs_collapse, body_of_panel)]))
  = label_at image_next_to_body menu.
Proof.
  apply (run_leaves_other_nodes menu [(show_bs_collapse, body_of_panel)]).
  apply not_image_next_to_body.
Defined.

(** X3.  After any sequence of events, fired anywhere in the document, the
    [src] of an image of a toggle is the icon of the last event that
    reached the image, and the collapsed icon when none did.  An event
    reaches the image when it is fired on, or below, a toggle of which the
    image is an image. *)
Theorem src_follows_last_reaching_event d evs t p :
  toggle d t → image_of d t p →
  (∀ e, reaches d p e ↔
        ∃ t', toggle d t' ∧ t' `prefix_of` e.2 ∧ image_of d t' p) ∧
  getAttribute p "src" (document (run d evs))
  = Some (last_src (filter (reaches d p) evs)).
Proof.
  intros Ht Hp. split; [intros e; apply reaches_spec |].
  apply src_of_image_run, elem_of_ready_targets. by exists t.
Qed.

Lemma src_follows_last_reaching_event_witness :
  getAttribute icon_of_panel "src"
    (document (run menu [(show_bs_collapse, body_of_panel);
                         (hide_bs_collapse, body_of_bare)]))
  = Some (last_src (filter (reaches menu icon_of_panel)
                      [(show_bs_collapse, body_of_panel);
                       (hide_bs_collapse, body_of_bare)])).
Proof.
  apply (src_follows_last_reaching_event menu
           [(show_bs_collapse, body_of_panel); (hide_bs_collapse, body_of_bare)]
           body_of_panel icon_of_panel).
  - apply toggle_menu_body.
  - apply image_of_menu_body.
Defined.

(** X4.  The image of a toggle never shows anything but one of the two
    icons of the script, at any moment after [ready]. *)
Theorem src_is_one_of_two_icons d evs t p :
  toggle d t → image_of d t p →
  getAttribute p "src" (document (run d evs)) = Some COLLAPSED_SRC ∨
  getAttribute p "src" (document (run d evs)) = Some EXPANDED_SRC.
Proof.
  intros Ht Hp. rewrite src_of_image_run
    by (apply elem_of_ready_targets; by exists t).
  destruct (last_src_cases (filter (reaches d p) evs)) as [-> | ->]; auto.
Qed.

Lemma src_is_one_of_two_icons_witness :
  getAttribute icon_of_panel "src"
    (document (run menu [(show_bs_collapse, body_of_panel)]))
    = Some COLLAPSED_SRC ∨
  getAttribute icon_of_panel "src"
    (document (run menu [(show_bs_collapse, body_of_panel)]))
    = Some EXPANDED_SRC.
Proof.
  apply (src_is_one_of_two_icons menu [(show_bs_collapse, body_of_panel)]
           body_of_panel icon_of_panel).
  - apply toggle_menu_body.
  - apply image_of_menu_body.
Defined.

(** X5.  The two icons are different URLs, so the image tells which event
    came last: after any sequence of events, fired anywhere in the
    document, the image of a toggle shows the expanded icon exactly when
    the last event that reached the image was an expand event. *)
Theorem expanded_iff_last_reaching_event_is_show d evs t p :
  toggle d t → image_of d t p →
  (∀ e, reaches d p e ↔
        ∃ t', toggle d t' ∧ t' `prefix_of` e.2 ∧ image_of d t' p) ∧
  (getAttribute p "src" (document (run d evs)) = Some EXPANDED_SRC
   ↔ ∃ x, last (filter (reaches d p) evs) = Some (show_bs_collapse, x)).
Proof.
  intros Ht Hp. split; [intros e; apply reaches_spec |].
  rewrite src_of_image_run by (apply elem_of_ready_targets; by exists t).
  unfold last_src.
  destruct (last (filter (reaches d p) evs)) as [[[] x] |]; simpl; split.
  - intros _. by exists x.
  - done.
  - by intros [=].
  - by intros (y & [=]).
  - by intros [=].
  - by intros (y & [=]).
Qed.

Lemma expanded_iff_last_reaching_event_is_show_witness :
  getAttribute [0; 2; 0] "src"
    (document (run shared [(show_bs_collapse, [0; 0]);
                           (hide_bs_collapse, [0; 1])]))
  = Some EXPANDED_SRC
  ↔ ∃ x, last (filter (reaches shared [0; 2; 0])
                 [(show_bs_collapse, [0; 0]); (hide_bs_collapse, [0; 1])])
         = Some (show_bs_collapse, x).
Proof.
  apply (expanded_iff_last_reaching_event_is_show shared
           [(show_bs_collapse, [0; 0]); (hide_bs_collapse, [0; 1])]
           [0; 0] [0; 2; 0]).
  - vm_compute. exact I.
  - exists [0; 2]. split_and!; [| by exists [0] | vm_compute; exact I].
    exists [0], 0, 2. split_and!; [done .. |]. vm_compute. exact I.
Defined.

(** *** What a listener never writes *)

(** X6.  A listener never writes to the toggle it runs on, nor to any
    node inside that toggle: an [update-image] element in the collapsible
    body keeps whatever [src] it has. *)
Theorem listener_spares_own_subtree ty t d p :
  t `prefix_of` p → label_at p (callback ty t d) = label_at p d.
Proof.
  intros Hpre. rewrite callback_updateImage.
  apply label_at_updateImage_notin.
  intros (t' & ->%list_elem_of_singleton & Hp)%elem_of_targets.
  by eapply image_of_not_below.
Qed.

Lemma listener_spares_own_subtree_witness :
  label_at [1; 0; 0] (callback show_bs_collapse body_of_bare menu)
  = label_at [1; 0; 0] menu.
Proof.
  apply (listener_spares_own_subtree show_bs_collapse body_of_bare menu [1; 0; 0]).
  by exists [0].
Defined.

(** *** Documents and events without a toggle *)

(** X7.  In a document with no element of class [update-on-expand] the
    script does nothing at all: [ready] leaves the document as it is and
    registers no listener, and so does every event after it. *)
Theorem no_toggle_nothing_happens d evs :
  (∀ t, ¬ toggle d t) → run d evs = Page d [].
Proof.
  intros Hno.
  assert (select "update-on-expand" d = []) as Hsel.
  { apply elem_of_nil_inv. intros t Ht%elem_of_select. by apply (Hno t). }
  assert (ready d = Page d []) as Hready.
  { unfold ready. rewrite Hsel. simpl. rewrite updateImage_nil. by rewrite Hsel. }
  induction evs as [| e evs IH] using rev_ind; [done |].
  rewrite run_snoc, IH, trigger_page. simpl.
  f_equal. apply updateImage_unchanged. intros p.
  unfold visited. simpl.
  assert (∀ cs : list path, cs ≫= (λ _ : path, @nil path) = []) as ->.
  { induction cs; [done | by rewrite bind_cons]. }
  apply not_elem_of_nil.
Qed.

Lemma no_toggle_nothing_happens_witness :
  run plain [(show_bs_collapse, [0]); (hide_bs_collapse, [])] = Page plain [].
Proof.
  apply (no_toggle_nothing_happens plain).
  intros t Ht%elem_of_select. vm_compute in Ht. by apply elem_of_nil in Ht.
Defined.

(** X8.  An event fired on a node that neither is a toggle nor lies
    inside one changes nothing, in whatever state the page is. *)
Theorem event_outside_toggles_is_noop d evs ty target :
  (∀ t, t `prefix_of` target → ¬ toggle d t) →
  trigger (ty, target) (run d evs) = run d evs.
Proof.
  intros Hno. apply page_eq; [| done].
  apply node_ext. intros p.
  rewrite (label_at_trigger d _ _ p (page_of_run d evs)).
  rewrite decide_False; [by destruct (label_at p (document (run d evs))) |].
  intros (t & Ht & Hpre & _)%reaches_spec. by apply (Hno t).
Qed.

Lemma event_outside_toggles_is_noop_witness :
  trigger (show_bs_collapse, [0; 0]) (run menu [(show_bs_collapse, body_of_panel)])
  = run menu [(show_bs_collapse, body_of_panel)].
Proof.
  apply (event_outside_toggles_is_noop menu [(show_bs_collapse, body_of_panel)]).
  intros t Hpre Ht%elem_of_select. vm_compute in Ht.
  apply elem_of_cons in Ht as [-> | ->%list_elem_of_singleton].
  - destruct Hpre as [k Hk]. discriminate Hk.
  - destruct Hpre as [k Hk]. discriminate Hk.
Defined.

(** *** How events compose *)

(** X9.  The later event wins: an event delivered after another one fired
    on the same node leaves the page as if the earlier one had not
    happened.  Likewise [updateImage] with a second URL on the same
    collection overwrites the first. *)
Theorem later_event_overwrites d evs ty1 ty2 x div s1 s2 d' :
  trigger (ty2, x) (trigger (ty1, x) (run d evs)) = trigger (ty2, x) (run d evs) ∧
  updateImage div s2 (updateImage div s1 d') = updateImage div s2 d'.
Proof.
  split.
  - apply page_eq; [| done]. apply node_ext. intros p.
    pose proof (page_of_run d evs) as Hpg.
    rewrite (label_at_trigger d _ _ p (page_of_trigger d (ty1, x) _ Hpg)).
    rewrite !(label_at_trigger d _ _ p Hpg).
    destruct (label_at p (document (run d evs))) as [l |]; simpl; [| done].
    destruct (decide (reaches d p (ty2, x))) as [H2 | H2].
    + rewrite decide_True by by eapply reaches_any_type.
      by rewrite set_label_attr_overwrite.
    + rewrite decide_False; [done |].
      intros H1. apply H2. by eapply reaches_any_type.
  - apply node_ext. intros p. rewrite label_at_updateImage_twice.
    rewrite label_at_updateImage.
    destruct (label_at p d') as [l |]; simpl; [| done].
    case_decide; [| done]. by rewrite set_label_attr_overwrite.
Qed.

(** X10.  Two events of the same type may be delivered in either order,
    and so may two events of any type that reach no common image. *)
Theorem independent_events_commute d evs e1 e2 :
  e1.1 = e2.1 ∨ (∀ p, ¬ (reaches d p e1 ∧ reaches d p e2)) →
  trigger e1 (trigger e2 (run d evs)) = trigger e2 (trigger e1 (run d evs)).
Proof.
  intros H. apply page_eq; [| done]. apply node_ext. intros p.
  pose proof (page_of_run d evs) as Hpg.
  rewrite (label_at_trigger d _ _ p (page_of_trigger d e2 _ Hpg)).
  rewrite (label_at_trigger d _ _ p (page_of_trigger d e1 _ Hpg)).
  rewrite !(label_at_trigger d _ _ p Hpg).
  destruct (label_at p (document (run d evs))) as [l |]; simpl; [| done].
  destruct (decide (reaches d p e1)) as [H1 | H1];
    destruct (decide (reaches d p e2)) as [H2 | H2]; try done.
  destruct H as [-> | H]; [by rewrite !set_label_attr_overwrite |].
  destruct (H p). done.
Qed.

Lemma independent_events_commute_witness :
  trigger (show_bs_collapse, body_of_panel)
    (trigger (hide_bs_collapse, body_of_bare) (run menu []))
  = trigger (hide_bs_collapse, body_of_bare)
      (trigger (show_bs_collapse, body_of_panel) (run menu [])).
Proof.
  apply (independent_events_commute menu []
           (show_bs_collapse, body_of_panel) (hide_bs_collapse, body_of_bare)).
  right. intros p [_ H2]. vm_compute in H2. by apply elem_of_nil in H2.
Defined.

(** X11.  [updateImage] on a collection is [updateImage] on its members
    one after the other, and on two collections in turn it is
    [updateImage] on both at once; so [ready] leaves the document that the
    collapse listener leaves when it is run once on each toggle. *)
Theorem updateImage_one_by_one div div' src d :
  updateImage div src d = foldl (λ d' t, updateImage [t] src d') d div ∧
  updateImage (div ++ div') src d = updateImage div' src (updateImage div src d) ∧
  document (ready d)
  = foldl (λ d' t, on_hide t d') d (select "update-on-expand" d).
Proof.
  split_and!.
  - by rewrite foldl_updateImage.
  - by rewrite updateImage_app.
  - unfold on_hide. by rewrite foldl_updateImage.
Qed.

(** *** Listeners *)

(** X12.  [ready] attaches one listener of each type to each toggle and to
    nothing else, and no event adds or removes a listener: at any moment
    of a run the listeners are those pairs, each once. *)
Theorem listeners_of_run d evs :
  NoDup (listeners (run d evs)) ∧
  ∀ ty p, (ty, p) ∈ listeners (run d evs) ↔ toggle d p.
Proof.
  rewrite listeners_run. split; [apply NoDup_listeners_ready |].
  intros ty p. apply listeners_ready.
Qed.

(** *** Around [ready] *)

Lemma hide_on_ready d x : trigger (hide_bs_collapse, x) (ready d) = ready d.
Proof.
  apply page_eq; [| done]. apply node_ext. intros p.
  rewrite (label_at_trigger d _ _ p (page_of_ready d)).
  destruct (decide (reaches d p (hide_bs_collapse, x))) as [He | He].
  - apply reaches_ready_targets in He.
    change (document (ready d))
      with (updateImage (select "update-on-expand" d) COLLAPSED_SRC d).
    rewrite label_at_updateImage.
    fold (ready_targets d). rewrite decide_True by done.
    destruct (label_at p d) as [l |]; simpl; [| done].
    by rewrite set_label_attr_overwrite.
  - by destruct (label_at p (document (ready d))).
Qed.

(** X13.  A collapse event right after [ready] changes nothing: every
    image it could write to already has the collapsed icon. *)
Theorem hide_after_ready_is_noop d x :
  trigger (hide_bs_collapse, x) (ready d) = ready d.
Proof. apply hide_on_ready. Qed.

(** X14.  Expanding and then collapsing, right after [ready], brings the
    page back to what [ready] made it. *)
Theorem show_then_hide_restores_ready d x :
  trigger (hide_bs_collapse, x) (trigger (show_bs_collapse, x) (ready d))
  = ready d.
Proof.
  rewrite <- (hide_on_ready d x) at 2.
  apply page_eq; [| done]. apply node_ext. intros p.
  pose proof (page_of_ready d) as Hpg.
  rewrite (label_at_trigger d _ _ p (page_of_trigger d (show_bs_collapse, x) _ Hpg)).
  rewrite !(label_at_trigger d _ _ p Hpg).
  destruct (label_at p (document (ready d))) as [l |]; simpl; [| done].
  destruct (decide (reaches d p (hide_bs_collapse, x))) as [H2 | H2].
  - rewrite decide_True by by eapply reaches_any_type.
    by rewrite set_label_attr_overwrite.
  - rewrite decide_False; [done |].
    intros H1. apply H2. by eapply reaches_any_type.
Qed.

End Further.
